(** * abstract-sdk: Projects, Shares and Webhooks endpoints

    A shallow embedding of [src/endpoints/Webhooks.js], [src/endpoints/Shares.js]
    and the Projects endpoint, together with the request dispatch they ride on.

    Every endpoint method builds one [api] closure and hands it, with the
    caller's [requestOptions], to [configureRequest]. A closure is an
    asynchronous computation: here a function from the [World] it runs in to
    the way its promise settles and the [World] it leaves behind. *)

From stdpp Require Import gmap strings list fin_maps.

Set Warnings "-register-all".
Set Default Proof Using "Type".

(** ** JavaScript data *)

(** JSON data: what a response body parses to, what a webhook delivers, what a
    request body holds. *)
Inductive JSON : Type :=
  | JNull
  | JBool (b : bool)
  | JNum (n : Z)
  | JStr (s : string)
  | JArr (items : list JSON)
  | JObj (fields : gmap string JSON).

(** A JavaScript value as these endpoints meet it: [None] is [undefined]. *)
Abbreviation Value := (option JSON).

(** [v[k]] for the keys read here ("data", "projects", "sectionId",
    "description", "sha"): reading a property of [undefined] or [null] throws
    a TypeError (outer [None]); a missing property, or any property of a
    boolean, number, string or array, reads as [undefined]. *)
Definition member (v : Value) (k : string) : option Value :=
  match v with
  | None | Some JNull => None
  | Some (JObj fields) => Some (fields !! k)
  | Some _ => Some None
  end.

(** [v === s] where [s] is a string or [undefined]. *)
Definition strict_eq_str (v : Value) (s : option string) : bool :=
  match v, s with
  | Some (JStr a), Some b => bool_decide (a = b)
  | None, None => true
  | _, _ => false
  end.

(** Truthiness of an optional string: [undefined] and the empty string are
    falsy. *)
Definition truthy (v : option string) : bool :=
  match v with
  | Some s => negb (bool_decide (s = ""))
  | None => false
  end.

(** A mutable object owned by the caller: its own properties, each holding a
    value (possibly [undefined]). *)
Abbreviation Obj := (gmap string Value).

(** The JSON reading of an object: properties holding [undefined] are left
    out, as serialization does. *)
Definition snapshot (o : Obj) : JSON := JObj (omap id o).

(** [o.k] on a live object. *)
Definition prop (o : Obj) (k : string) : Value := mjoin (o !! k).

Abbreviation loc := positive.

(** ** Libraries and helpers outside these files *)

(** What the endpoints import and this development takes as given:
    [js-sha256]'s [sha256.hmac(key, message)] (hex digest), [JSON.stringify]
    on JSON data, [query-string]'s [stringify], the [inferShareId] helper of
    [util/helpers] with the share descriptors it reads, and the fixed delay the
    transport waits before its retry when a 429 carries no hint. *)
Class Platform : Type := {
  sha256_hmac : string → string → string;
  JSON_stringify : JSON → string;
  querystring_stringify : Obj → string;
  ShareDescriptor : Type;
  inferShareId : ShareDescriptor → string;
  defaultRetryAfter : nat
}.

(** ** Data model of the dispatch engine *)

Inductive TransportMode : Type := API | CLI.

#[global] Instance TransportMode_eq_dec : EqDecision TransportMode.
Proof. solve_decision. Defined.

(** Modelled from the spec: the Client (Client.js is not under src/) owns one
    TransportConfig, set at construction. *)
Record TransportConfig : Type := {
  mode : TransportMode;
  apiBaseUrl : option string;
  cliExecutablePath : option string;
  authToken : option string;
  defaultHeaders : gmap string string
}.

(** Modelled from the spec: RequestOptions of ../types is not under src/.
    Per-call options (§3): the transport mode for this call, when set, and
    extra headers. *)
Record RequestOptions : Type := {
  transportMode : option TransportMode;
  optHeaders : option (gmap string string)
}.

(** [requestOptions = {}] *)
Definition noOptions : RequestOptions :=
  {| transportMode := None; optHeaders := None |}.

(** Modelled from the spec: the tagged failures of §3. *)
Inductive TypedError : Type :=
  | NetworkError
  | HTTPStatusError (code : nat) (body : Value)
  | RateLimited (retryAfter : nat)
  | ProcessSpawnError
  | ProcessExitError (code : nat) (stderr : string)
  | MalformedResponse
  | SignatureMismatch
  | ConfigurationError.

(** How a promise is rejected: with one of the engine's typed errors, with
    the TypeError the JavaScript runtime throws inside a closure, or with the
    Error [js-sha256] throws on a message that is not a string ("input is
    invalid type"). *)
Inductive Rejection : Type :=
  | Typed (e : TypedError)
  | TypeError
  | InvalidInput.

Inductive Outcome (A : Type) : Type :=
  | Resolved (a : A)
  | Rejected (r : Rejection).
Arguments Resolved {A} a.
Arguments Rejected {A} r.

Inductive Method : Type := GET | POST | PUT | DELETE.

(** One call of [this.apiRequest(path, options)]: the path and the [method],
    [body] and [headers] keys of the options object, each absent or given. *)
Record ApiCall : Type := {
  path : string;
  method : option Method;
  body : option JSON;
  headers : option (gmap string string)
}.

(** [apiRequest(path, {method, body, headers})], keys in this order. *)
Definition call (p : string) (m : option Method) (b : option JSON)
    (h : option (gmap string string)) : ApiCall :=
  {| path := p; method := m; body := b; headers := h |}.

(** The value a request header has on a call, if the call names it. *)
Definition header (c : ApiCall) (name : string) : option string :=
  headers c ≫= (.!! name).

(** What the server answers to one HTTP exchange: the status, the retry-after
    hint read from the headers, and the body parsed as JSON ([None] when it
    does not parse). *)
Record HttpReply : Type := {
  status : nat;
  retryAfterHint : option nat;
  parsed : option JSON
}.

Inductive Exchange : Type :=
  | Unreachable
  | Reply (r : HttpReply).

(** What can be observed of a run, in order. *)
Inductive Event : Type :=
  | Invoked (t : TransportMode)
  | Sent (c : ApiCall)
  | Waited (d : nat).

(** The world a call runs in: the Client's configuration, the caller's
    objects, the answers the server is going to give (one per exchange), and
    the events so far. *)
Record World : Type := {
  client : TransportConfig;
  heap : gmap loc Obj;
  server : list Exchange;
  trace : list Event
}.

Definition record (e : Event) (w : World) : World :=
  {| client := client w; heap := heap w; server := server w;
     trace := trace w ++ [e] |}.

(** ** Asynchronous computations *)

Definition Async (A : Type) : Type := World → Outcome A * World.

#[global] Instance Async_ret : MRet Async :=
  λ A a w, (Resolved a, w).

#[global] Instance Async_bind : MBind Async :=
  λ A B k m w,
    match m w with
    | (Resolved a, w') => k a w'
    | (Rejected r, w') => (Rejected r, w')
    end.

Definition reject {A : Type} (r : Rejection) : Async A :=
  λ w, (Rejected r, w).

Definition settle {A : Type} (o : Outcome A) : Async A :=
  λ w, (o, w).

(** A synchronous step that may throw a TypeError. *)
Definition orThrow {A : Type} (o : option A) : Async A :=
  match o with
  | Some a => mret a
  | None => reject TypeError
  end.

Definition emit (e : Event) : Async unit :=
  λ w, (Resolved (), record e w).

(** The settled result of a run, and the events the run added. *)
Definition outcome {A : Type} (m : Async A) (w : World) : Outcome A := (m w).1.
Definition after {A : Type} (m : Async A) (w : World) : World := (m w).2.
Definition events {A : Type} (m : Async A) (w : World) : list Event :=
  drop (length (trace w)) (trace (after m w)).

(** ** HTTPTransport *)

Definition success (r : HttpReply) : bool :=
  bool_decide (200 ≤ status r < 300).

(** One exchange with the server: the call goes out and the next scripted
    answer comes back; with nothing left to answer, the server is
    unreachable. *)
Definition exchange (c : ApiCall) : Async Exchange :=
  λ w,
    match server w with
    | [] => (Resolved Unreachable, record (Sent c) w)
    | x :: rest =>
        (Resolved x,
         record (Sent c)
           {| client := client w; heap := heap w; server := rest;
              trace := trace w |})
    end.

(** Modelled from the spec: the ResponseEnvelope of §3, as the JavaScript
    object the endpoint reads: [{data: parsedBody, meta: {status}}]. *)
Definition envelope (r : HttpReply) (data : JSON) : JSON :=
  JObj {[ "data" := data;
          "meta" := JObj {[ "status" := JNum (Z.of_nat (status r)) ]} ]}.

(** Modelled from the spec: a reply that is not a 429, read as §4.2 says. 2xx
    with a JSON body is the envelope, 2xx without one is MalformedResponse,
    anything else is HTTPStatusError with the body. *)
Definition interpret (r : HttpReply) : Outcome JSON :=
  if success r then
    match parsed r with
    | Some data => Resolved (envelope r data)
    | None => Rejected (Typed MalformedResponse)
    end
  else Rejected (Typed (HTTPStatusError (status r) (parsed r))).

Section transport.
Context `{Platform}.

(** Modelled from the spec: Endpoint.apiRequest (Endpoint.js is not under
    src/) is the HTTPTransport of §4.2. A transport-level failure is
    NetworkError, not retried. On 429 it waits the hint (or the fixed
    default) and retries once; a retry that fails again surfaces
    RateLimited. *)
Definition apiRequest (c : ApiCall) : Async JSON :=
  first ← exchange c;
  match first with
  | Unreachable => reject (Typed NetworkError)
  | Reply r =>
      if bool_decide (status r = 429) then
        let delay := default defaultRetryAfter (retryAfterHint r) in
        _ ← emit (Waited delay);
        second ← exchange c;
        match second with
        | Reply r' =>
            if success r' then settle (interpret r')
            else reject (Typed (RateLimited delay))
        | Unreachable => reject (Typed (RateLimited delay))
        end
      else settle (interpret r)
  end.
End transport.

(** ** Dispatcher *)

(** The object handed to [configureRequest]: the [api] closure, the [cli]
    closure when the operation has one, and the caller's options. *)
Record RequestConfig (T : Type) : Type := {
  api : Async T;
  cli : option (Async T);
  requestOptions : RequestOptions
}.
Arguments api {T} _.
Arguments cli {T} _.
Arguments requestOptions {T} _.

(** Modelled from the spec: the effective mode of a call (§4.1) is the
    per-call transportMode if present, else the Client's configured mode. *)
Definition effectiveMode (cfg : TransportConfig) (o : RequestOptions) : TransportMode :=
  default (mode cfg) (transportMode o).

(** Modelled from the spec: Endpoint.configureRequest (Endpoint.js is not
    under src/) is the Dispatcher of §4.1. It runs the closure of the
    effective mode and nothing else; in CLI mode without a [cli] closure it
    fails with ConfigurationError. *)
Definition configureRequest {T : Type} (request : RequestConfig T) : Async T :=
  λ w,
    match effectiveMode (client w) (requestOptions request) with
    | API => (_ ← emit (Invoked API); api request) w
    | CLI =>
        match cli request with
        | Some action => (_ ← emit (Invoked CLI); action) w
        | None => reject (Typed ConfigurationError) w
        end
    end.

(** ** Helpers of [util/helpers] and descriptors of [../types] *)

(** What an endpoint resolves to: a value as the transport gave it, or a
    value passed through [wrap]. *)
Inductive Payload : Type :=
  | Plain (v : Value)
  | Wrapped (v : Value) (response : option JSON).

(** Modelled from the spec: wrap of util/helpers is not under src/. The
    caller receives the payload itself (§2: the resource call unwraps data
    for the caller); the response it was taken from, when one is passed,
    rides along as diagnostic data (§3). *)
Definition wrap (v : Value) (response : option JSON) : Payload :=
  Wrapped v response.

(** The value the caller reads. *)
Definition value (p : Payload) : Value :=
  match p with
  | Plain v | Wrapped v _ => v
  end.

Class HasOrganizationId (D : Type) := organizationId : D → string.
Class HasProjectId (D : Type) := projectId : D → string.
Class HasWebhookId (D : Type) := webhookId : D → string.
Class HasDeliveryId (D : Type) := deliveryId : D → string.

Inductive OrganizationDescriptor : Type :=
  | Organization (organizationId : string).
Inductive ProjectDescriptor : Type :=
  | Project (projectId : string).
Inductive WebhookDescriptor : Type :=
  | Webhook (organizationId webhookId : string).
Inductive WebhookDeliveryDescriptor : Type :=
  | WebhookDelivery (organizationId webhookId deliveryId : string).

#[global] Instance Organization_organizationId : HasOrganizationId OrganizationDescriptor :=
  λ '(Organization o), o.
#[global] Instance Project_projectId : HasProjectId ProjectDescriptor :=
  λ '(Project p), p.
#[global] Instance Webhook_organizationId : HasOrganizationId WebhookDescriptor :=
  λ '(Webhook o _), o.
#[global] Instance Webhook_webhookId : HasWebhookId WebhookDescriptor :=
  λ '(Webhook _ h), h.
#[global] Instance WebhookDelivery_organizationId : HasOrganizationId WebhookDeliveryDescriptor :=
  λ '(WebhookDelivery o _ _), o.
#[global] Instance WebhookDelivery_webhookId : HasWebhookId WebhookDeliveryDescriptor :=
  λ '(WebhookDelivery _ h _), h.
#[global] Instance WebhookDelivery_deliveryId : HasDeliveryId WebhookDeliveryDescriptor :=
  λ '(WebhookDelivery _ _ d), d.

(** [{...descriptor}] for an organization descriptor. *)
Definition spread (descriptor : OrganizationDescriptor) : Obj :=
  {[ "organizationId" := Some (JStr (organizationId descriptor)) ]}.

(** ** Objects shared with the caller *)

(** [project.k = f(project)]: the caller's object is updated in place. A
    reference to no object makes the assignment throw. *)
Definition assign (l : loc) (k : string) (f : Obj → Value) : Async unit :=
  λ w,
    match heap w !! l with
    | Some o =>
        (Resolved (),
         {| client := client w; heap := <[l := <[k := f o]> o]> (heap w);
            server := server w; trace := trace w |})
    | None => (Rejected TypeError, w)
    end.

(** The object behind a reference, as it is when the request body is built. *)
Definition deref (l : loc) : Async JSON :=
  λ w, orThrow (snapshot <$> heap w !! l) w.

(** [array.filter(keep)]: a TypeError when the receiver is not an array or
    when the callback throws. *)
Fixpoint filterM (keep : JSON → option bool) (items : list JSON) : option (list JSON) :=
  match items with
  | [] => Some []
  | x :: rest =>
      b ← keep x;
      kept ← filterM keep rest;
      Some (if b : bool then x :: kept else kept)
  end.

Definition arrayFilter (v : Value) (keep : JSON → option bool) : option (list JSON) :=
  match v with
  | Some (JArr items) => filterM keep items
  | _ => None
  end.

(** ** src/endpoints/Projects.js *)

Module Projects.

Definition headers : gmap string string :=
  {[ "Abstract-Api-Version" := "22" ]}.

Inductive Filter : Type := active | archived.

Definition filterName (f : Filter) : string :=
  match f with
  | active => "active"
  | archived => "archived"
  end.

(** The [options] of [list]: request options with [filter] and [sectionId]
    beside them; [others] is the rest the destructuring leaves. *)
Record ListOptions : Type := {
  filter : option Filter;
  sectionId : option string;
  others : RequestOptions
}.

(** The [query] of [list]: [{...descriptor, filter, sectionId}] through
    [querystring.stringify]. *)
Definition listQuery `{Platform} (descriptor : OrganizationDescriptor)
    (filter : option Filter) (sectionId : option string) : string :=
  querystring_stringify
    (<["sectionId" := JStr <$> sectionId]>
       (<["filter" := JStr ∘ filterName <$> filter]> (spread descriptor))).

Definition info `{Platform} (descriptor : ProjectDescriptor)
    (requestOptions : RequestOptions) : Async Payload :=
  configureRequest {|
    api :=
      response ← apiRequest
        (call ("projects/" +:+ projectId descriptor) None None (Some headers));
      data ← orThrow (member (Some response) "data");
      mret (wrap data (Some response));
    cli := None;
    requestOptions := requestOptions
  |}.

Definition list `{Platform} (descriptor : OrganizationDescriptor)
    (options : ListOptions) : Async Payload :=
  let filter := filter options in
  let sectionId := sectionId options in
  let requestOptions := others options in
  configureRequest {|
    api :=
      let query := listQuery descriptor filter sectionId in
      response ← apiRequest (call ("projects?" +:+ query) None None (Some headers));
      if truthy sectionId then
        data ← orThrow (member (Some response) "data");
        projects ← orThrow (member data "projects");
        kept ← orThrow
          (arrayFilter projects
             (λ project,
                v ← member (Some project) "sectionId";
                Some (strict_eq_str v sectionId)));
        mret (Plain (Some (JArr kept)))
      else
        data ← orThrow (member (Some response) "data");
        projects ← orThrow (member data "projects");
        mret (wrap projects (Some response));
    cli := None;
    requestOptions := requestOptions
  |}.

Definition create `{Platform} (descriptor : OrganizationDescriptor)
    (project : loc) (requestOptions : RequestOptions) : Async Payload :=
  _ ← assign project "about" (λ o, prop o "description");
  configureRequest {|
    api :=
      sent ← deref project;
      response ← apiRequest (call "projects" (Some POST) (Some sent) None);
      mret (wrap (Some response) None);
    cli := None;
    requestOptions := requestOptions
  |}.

Definition update `{Platform} (descriptor : ProjectDescriptor)
    (project : loc) (requestOptions : RequestOptions) : Async Payload :=
  _ ← assign project "about" (λ o, prop o "description");
  configureRequest {|
    api :=
      sent ← deref project;
      response ← apiRequest
        (call ("projects/" +:+ projectId descriptor) (Some PUT) (Some sent) None);
      mret (wrap (Some response) None);
    cli := None;
    requestOptions := requestOptions
  |}.

Definition delete `{Platform} (descriptor : ProjectDescriptor)
    (requestOptions : RequestOptions) : Async JSON :=
  configureRequest {|
    api :=
      apiRequest
        (call ("projects/" +:+ projectId descriptor) (Some DELETE) None None);
    cli := None;
    requestOptions := requestOptions
  |}.

Definition archive `{Platform} (descriptor : ProjectDescriptor)
    (requestOptions : RequestOptions) : Async JSON :=
  configureRequest {|
    api :=
      apiRequest
        (call ("projects/" +:+ projectId descriptor +:+ "/archive") (Some PUT) None None);
    cli := None;
    requestOptions := requestOptions
  |}.

Definition unarchive `{Platform} (descriptor : ProjectDescriptor)
    (requestOptions : RequestOptions) : Async JSON :=
  configureRequest {|
    api :=
      apiRequest
        (call ("projects/" +:+ projectId descriptor +:+ "/unarchive") (Some PUT) None None);
    cli := None;
    requestOptions := requestOptions
  |}.

End Projects.

(** ** src/endpoints/Shares.js *)

Module Shares.

Definition headers : gmap string string :=
  {[ "Abstract-Api-Version" := "13" ]}.

(** The body of [create]: [{...descriptor, ...shareInput, commitSha:
    shareInput.sha}], later keys winning. *)
Definition createBody (descriptor : OrganizationDescriptor) (shareInput : Obj) : JSON :=
  snapshot (<["commitSha" := prop shareInput "sha"]> (shareInput ∪ spread descriptor)).

Definition create `{Platform} (descriptor : OrganizationDescriptor)
    (shareInput : Obj) (requestOptions : RequestOptions) : Async JSON :=
  configureRequest {|
    api :=
      apiRequest
        (call "share_links" (Some POST) (Some (createBody descriptor shareInput))
           (Some headers));
    cli := None;
    requestOptions := requestOptions
  |}.

Definition info `{Platform} (descriptor : ShareDescriptor)
    (requestOptions : RequestOptions) : Async JSON :=
  configureRequest {|
    api :=
      apiRequest
        (call ("share_links/" +:+ inferShareId descriptor) None None (Some headers));
    cli := None;
    requestOptions := requestOptions
  |}.

End Shares.

(** ** src/endpoints/Webhooks.js *)

Module Webhooks.

Definition list `{Platform} (descriptor : OrganizationDescriptor)
    (requestOptions : RequestOptions) : Async JSON :=
  configureRequest {|
    api :=
      apiRequest
        (call ("organizations/" +:+ organizationId descriptor +:+ "/webhooks")
           None None None);
    cli := None;
    requestOptions := requestOptions
  |}.

Definition info `{Platform} (descriptor : WebhookDescriptor)
    (requestOptions : RequestOptions) : Async JSON :=
  configureRequest {|
    api :=
      apiRequest
        (call ("organizations/" +:+ organizationId descriptor +:+ "/webhooks/"
                 +:+ webhookId descriptor)
           None None None);
    cli := None;
    requestOptions := requestOptions
  |}.

Definition events `{Platform} (descriptor : OrganizationDescriptor)
    (requestOptions : RequestOptions) : Async JSON :=
  configureRequest {|
    api :=
      apiRequest
        (call ("organizations/" +:+ organizationId descriptor +:+ "/webhooks/events")
           None None None);
    cli := None;
    requestOptions := requestOptions
  |}.

Definition create `{Platform} (descriptor : OrganizationDescriptor)
    (webhook : JSON) (requestOptions : RequestOptions) : Async JSON :=
  configureRequest {|
    api :=
      apiRequest
        (call ("organizations/" +:+ organizationId descriptor +:+ "/webhooks/subscribe")
           (Some POST)
           (Some (JObj {[ "subscription" := webhook ]}))
           None);
    cli := None;
    requestOptions := requestOptions
  |}.

Definition update `{Platform} (descriptor : OrganizationDescriptor)
    (webhook : JSON) (requestOptions : RequestOptions) : Async JSON :=
  configureRequest {|
    api :=
      apiRequest
        (call ("organizations/" +:+ organizationId descriptor +:+ "/webhooks/subscribe")
           (Some POST)
           (Some (JObj {[ "subscription" := webhook ]}))
           None);
    cli := None;
    requestOptions := requestOptions
  |}.

Definition delete `{Platform} (descriptor : WebhookDescriptor)
    (requestOptions : RequestOptions) : Async JSON :=
  configureRequest {|
    api :=
      apiRequest
        (call ("organizations/" +:+ organizationId descriptor +:+ "/webhooks/"
                 +:+ webhookId descriptor +:+ "/unsubscribe")
           (Some DELETE) None None);
    cli := None;
    requestOptions := requestOptions
  |}.

Definition ping `{Platform} (descriptor : WebhookDescriptor)
    (requestOptions : RequestOptions) : Async JSON :=
  configureRequest {|
    api :=
      apiRequest
        (call ("organizations/" +:+ organizationId descriptor +:+ "/webhooks/"
                 +:+ webhookId descriptor +:+ "/ping")
           (Some POST) None None);
    cli := None;
    requestOptions := requestOptions
  |}.

Definition deliveries `{Platform} (descriptor : WebhookDescriptor)
    (requestOptions : RequestOptions) : Async JSON :=
  configureRequest {|
    api :=
      apiRequest
        (call ("organizations/" +:+ organizationId descriptor +:+ "/webhooks/"
                 +:+ webhookId descriptor +:+ "/deliveries")
           None None None);
    cli := None;
    requestOptions := requestOptions
  |}.

Definition redeliver `{Platform} (descriptor : WebhookDeliveryDescriptor)
    (requestOptions : RequestOptions) : Async JSON :=
  configureRequest {|
    api :=
      apiRequest
        (call ("organizations/" +:+ organizationId descriptor +:+ "/webhooks/"
                 +:+ webhookId descriptor +:+ "/deliveries/"
                 +:+ deliveryId descriptor +:+ "/redeliver")
           (Some POST) None None);
    cli := None;
    requestOptions := requestOptions
  |}.

(** The signature the [api] closure of [verify] computes. *)
Definition signatureOf `{Platform} (payload : JSON) (signingKey : string) : string :=
  sha256_hmac signingKey (JSON_stringify payload).

(** The [api] closure of [verify]. The payload is any value:
    [JSON.stringify] gives the serialization of JSON data, and [undefined]
    for [undefined], on which [sha256.hmac] throws. *)
Definition verifyApi `{Platform} (payload : Value)
    (expectedSignature signingKey : string) : Async bool :=
  match payload with
  | Some data =>
      let signature := signatureOf data signingKey in
      mret (bool_decide (signature = expectedSignature))
  | None => reject InvalidInput
  end.

Definition verify `{Platform} (payload : Value)
    (expectedSignature signingKey : string)
    (requestOptions : RequestOptions) : Async bool :=
  configureRequest {|
    api := verifyApi payload expectedSignature signingKey;
    cli := None;
    requestOptions := requestOptions
  |}.

End Webhooks.

(** ** Every operation of the three resources *)

Inductive Resource : Type := ProjectsResource | SharesResource | WebhooksResource.

Inductive Operation `{Platform} : Type :=
  | ProjectsInfo (d : ProjectDescriptor) (o : RequestOptions)
  | ProjectsList (d : OrganizationDescriptor) (o : Projects.ListOptions)
  | ProjectsCreate (d : OrganizationDescriptor) (project : loc) (o : RequestOptions)
  | ProjectsUpdate (d : ProjectDescriptor) (project : loc) (o : RequestOptions)
  | ProjectsDelete (d : ProjectDescriptor) (o : RequestOptions)
  | ProjectsArchive (d : ProjectDescriptor) (o : RequestOptions)
  | ProjectsUnarchive (d : ProjectDescriptor) (o : RequestOptions)
  | SharesCreate (d : OrganizationDescriptor) (shareInput : Obj) (o : RequestOptions)
  | SharesInfo (d : ShareDescriptor) (o : RequestOptions)
  | WebhooksList (d : OrganizationDescriptor) (o : RequestOptions)
  | WebhooksInfo (d : WebhookDescriptor) (o : RequestOptions)
  | WebhooksEvents (d : OrganizationDescriptor) (o : RequestOptions)
  | WebhooksCreate (d : OrganizationDescriptor) (webhook : JSON) (o : RequestOptions)
  | WebhooksUpdate (d : OrganizationDescriptor) (webhook : JSON) (o : RequestOptions)
  | WebhooksDelete (d : WebhookDescriptor) (o : RequestOptions)
  | WebhooksPing (d : WebhookDescriptor) (o : RequestOptions)
  | WebhooksDeliveries (d : WebhookDescriptor) (o : RequestOptions)
  | WebhooksRedeliver (d : WebhookDeliveryDescriptor) (o : RequestOptions)
  | WebhooksVerify (payload : Value) (expectedSignature signingKey : string)
      (o : RequestOptions).

Definition resource `{Platform} (op : Operation) : Resource :=
  match op with
  | ProjectsInfo _ _ | ProjectsList _ _ | ProjectsCreate _ _ _
  | ProjectsUpdate _ _ _ | ProjectsDelete _ _ | ProjectsArchive _ _
  | ProjectsUnarchive _ _ => ProjectsResource
  | SharesCreate _ _ _ | SharesInfo _ _ => SharesResource
  | _ => WebhooksResource
  end.

(** The request options the caller passed to an operation. *)
Definition optionsOf `{Platform} (op : Operation) : RequestOptions :=
  match op with
  | ProjectsList _ o => Projects.others o
  | ProjectsInfo _ o | ProjectsCreate _ _ o | ProjectsUpdate _ _ o
  | ProjectsDelete _ o | ProjectsArchive _ o | ProjectsUnarchive _ o
  | SharesCreate _ _ o | SharesInfo _ o
  | WebhooksList _ o | WebhooksInfo _ o | WebhooksEvents _ o
  | WebhooksCreate _ _ o | WebhooksUpdate _ _ o | WebhooksDelete _ o
  | WebhooksPing _ o | WebhooksDeliveries _ o | WebhooksRedeliver _ o
  | WebhooksVerify _ _ _ o => o
  end.

Definition discard {A : Type} (m : Async A) : Async unit := _ ← m; mret ().

(** The call itself, its result set aside. *)
Definition perform `{Platform} (op : Operation) : Async unit :=
  match op with
  | ProjectsInfo d o => discard (Projects.info d o)
  | ProjectsList d o => discard (Projects.list d o)
  | ProjectsCreate d p o => discard (Projects.create d p o)
  | ProjectsUpdate d p o => discard (Projects.update d p o)
  | ProjectsDelete d o => discard (Projects.delete d o)
  | ProjectsArchive d o => discard (Projects.archive d o)
  | ProjectsUnarchive d o => discard (Projects.unarchive d o)
  | SharesCreate d i o => discard (Shares.create d i o)
  | SharesInfo d o => discard (Shares.info d o)
  | WebhooksList d o => discard (Webhooks.list d o)
  | WebhooksInfo d o => discard (Webhooks.info d o)
  | WebhooksEvents d o => discard (Webhooks.events d o)
  | WebhooksCreate d h o => discard (Webhooks.create d h o)
  | WebhooksUpdate d h o => discard (Webhooks.update d h o)
  | WebhooksDelete d o => discard (Webhooks.delete d o)
  | WebhooksPing d o => discard (Webhooks.ping d o)
  | WebhooksDeliveries d o => discard (Webhooks.deliveries d o)
  | WebhooksRedeliver d o => discard (Webhooks.redeliver d o)
  | WebhooksVerify p s k o => discard (Webhooks.verify p s k o)
  end.

(** ** What a computation may touch *)

(** [m] only appends events, each allowed by [P] under the Client's
    configuration, and leaves that configuration as it found it. *)
Definition footprint {A : Type} (P : TransportConfig → Event → Prop)
    (m : Async A) : Prop :=
  ∀ w, client (after m w) = client w
       ∧ ∃ es, trace (after m w) = trace w ++ es ∧ Forall (P (client w)) es.

(** [m] leaves the caller's objects alone. *)
Definition keepsHeap {A : Type} (m : Async A) : Prop :=
  ∀ w, heap (after m w) = heap w.

(** The transports a run invoked, in order. *)
Definition invoked (es : list Event) : list TransportMode :=
  omap (λ e, match e with Invoked t => Some t | _ => None end) es.

(** The calls a run handed to the HTTP transport, in order. *)
Definition sent (es : list Event) : list ApiCall :=
  omap (λ e, match e with Sent c => Some c | _ => None end) es.

(** The waits of a run, in order. *)
Definition waited (es : list Event) : list nat :=
  omap (λ e, match e with Waited d => Some d | _ => None end) es.

(** The version header a project or share has on the calls of an
    operation: the pinned value, or none. *)
Definition pinnedVersion `{Platform} (op : Operation) : option string :=
  match op with
  | ProjectsInfo _ _ | ProjectsList _ _ => Some "22"
  | SharesCreate _ _ _ | SharesInfo _ _ => Some "13"
  | _ => None
  end.

(** A project of the response belongs to section [s]: its [sectionId] is the
    string [s]. *)
Definition inSection (s : string) (project : JSON) : Prop :=
  member (Some project) "sectionId" = Some (Some (JStr s)).

#[global] Instance inSection_dec s project : Decision (inSection s project).
Proof.
  unfold inSection.
  destruct (member (Some project) "sectionId") as [[[| | |s'| |]|]|];
    try (right; congruence).
  destruct (decide (s' = s)) as [->|]; [left|right]; congruence.
Defined.

(** A stand-in platform for the closed examples: a signature is the key and
    the message side by side, serialization tells strings from the rest. *)
Definition toyPlatform : Platform := {|
  sha256_hmac key message := key +:+ ":" +:+ message;
  JSON_stringify j := match j with JStr s => s | _ => "{}" end;
  querystring_stringify _ := "";
  ShareDescriptor := string;
  inferShareId url := url;
  defaultRetryAfter := 1
|}.

Definition apiClient : TransportConfig := {|
  mode := API; apiBaseUrl := Some "http://api"; cliExecutablePath := None;
  authToken := None; defaultHeaders := ∅
|}.

Definition cliClient : TransportConfig := {|
  mode := CLI; apiBaseUrl := None; cliExecutablePath := Some ".";
  authToken := None; defaultHeaders := ∅
|}.

(** A fresh world: nothing on the heap, nothing observed yet. *)
Definition world (cfg : TransportConfig) (answers : list Exchange) : World :=
  {| client := cfg; heap := ∅; server := answers; trace := [] |}.

Definition ok (data : JSON) : Exchange :=
  Reply {| status := 200; retryAfterHint := None; parsed := Some data |}.

Definition tooMany (hint : option nat) : Exchange :=
  Reply {| status := 429; retryAfterHint := hint; parsed := None |}.

(** What a call of [op] may leave in the trace under configuration [cfg]:
    the invocation of the effective mode's transport, calls carrying the
    operation's version header (or none), and waits. *)
Definition allowed `{Platform} (op : Operation) (cfg : TransportConfig)
    (e : Event) : Prop :=
  match e with
  | Invoked t => t = effectiveMode cfg (optionsOf op)
  | Sent c => header c "Abstract-Api-Version" = pinnedVersion op
  | Waited _ => True
  end.

(** An action that leaves no invocation mark of its own: it appends sends
    and waits only. *)
Definition silent (_ : TransportConfig) (e : Event) : Prop :=
  match e with
  | Invoked _ => False
  | _ => True
  end.

(** ** The test helpers that follow Shares.js *)

Module Testing.

(** A readable text stream: the chunks pushed so far, and whether the end
    was pushed. *)
Record TextStream : Type := {
  chunks : list string;
  ended : bool
}.

(** [stream.push(chunk)]; pushing [null] ends the stream. *)
Definition push (chunk : option string) (stream : TextStream) : TextStream :=
  match chunk with
  | Some text => {| chunks := chunks stream ++ [text]; ended := ended stream |}
  | None => {| chunks := chunks stream; ended := true |}
  end.

Definition buildTextStream (text : option string) : TextStream :=
  let stream := {| chunks := []; ended := false |} in
  if truthy text then push None (push text stream) else stream.

(** One recorded call of the mocked [child_process.spawn]: the command and
    its argument vector. *)
Record SpawnCall : Type := {
  command : string;
  argv : list string
}.

(** [array.slice(-n)]: the last [n] elements; the whole array when [n] is 0
    (minus zero is zero) or exceeds the length. *)
Definition sliceLast {A : Type} (n : nat) (l : list A) : list A :=
  match n with
  | 0 => l
  | _ => drop (length l - n) l
  end.

(** What registering a handler with [on] comes to: a TypeError (no call of
    [spawn] was recorded), the failed expectation, or the codes the
    scheduled timeout passes to the callback, in order. *)
Inductive Registered : Type :=
  | Threw
  | ExpectationFailed
  | Scheduled (codes : list nat).

(** The object the mocked [spawn] returns once. *)
Record ChildProcess : Type := {
  stdout : TextStream;
  stderr : TextStream;
  on : list SpawnCall → string → Registered
}.

Definition mockCLI `{Platform} (args : list string) (response : option JSON)
    (error : option (gmap string JSON)) : ChildProcess := {|
  stdout := buildTextStream (JSON_stringify <$> response);
  stderr := buildTextStream (JSON_stringify ∘ JObj <$> error);
  on := λ calls name,
    match calls with
    | [] => Threw
    | first :: _ =>
        let callArgs := sliceLast (length args) (argv first) in
        if decide (callArgs = args) then
          Scheduled
            ((if bool_decide (name = "error") && bool_decide (is_Some error)
              then [1] else [])
             ++ (if bool_decide (name = "close") && negb (bool_decide (is_Some error))
                 then [0] else []))
        else ExpectationFailed
    end
|}.

End Testing.

(** ** Shapes of the calls an operation sends *)

(** The root every path of a resource starts with. *)
Definition rootOf (r : Resource) : string :=
  match r with
  | ProjectsResource => "projects"
  | SharesResource => "share_links"
  | WebhooksResource => "organizations/"
  end.

(** [s] begins with [root]. *)
Fixpoint startsWith (root s : string) : bool :=
  match root with
  | EmptyString => true
  | String a root' =>
      match s with
      | String b s' => bool_decide (a = b) && startsWith root' s'
      | EmptyString => false
      end
  end.

(** A call that carries a body names POST or PUT as its method. *)
Definition writesOnly (c : ApiCall) : bool :=
  match method c, body c with
  | Some POST, _ | Some PUT, _ => true
  | _, None => true
  | _, Some _ => false
  end.

(** What a call of [op] may leave in the trace, as to paths and bodies. *)
Definition shaped `{Platform} (op : Operation) (_ : TransportConfig)
    (e : Event) : Prop :=
  match e with
  | Sent c =>
      startsWith (rootOf (resource op)) (path c) = true
      ∧ writesOnly c = true
  | _ => True
  end.

(** The object an operation is given to send, if any: the [project] argument
    of [Projects.create] and [Projects.update]. *)
Definition projectOf `{Platform} (op : Operation) : option loc :=
  match op with
  | ProjectsCreate _ project _ | ProjectsUpdate _ project _ => Some project
  | _ => None
  end.

(** * Properties *)

Section laws.
Context `{Platform}.

Lemma events_spec {A} (m : Async A) w es :
  trace (after m w) = trace w ++ es → events m w = es.
Proof. unfold events. intros ->. by rewrite drop_app_length. Qed.

Lemma bind_run {A B} (m : Async A) (k : A → Async B) w :
  (m ≫= k) w =
    match m w with
    | (Resolved a, w') => k a w'
    | (Rejected r, w') => (Rejected r, w')
    end.
Proof. reflexivity. Qed.

Lemma footprint_mono {A} (P Q : TransportConfig → Event → Prop) (m : Async A) :
  (∀ cfg e, P cfg e → Q cfg e) → footprint P m → footprint Q m.
Proof.
  intros HPQ Hm w. destruct (Hm w) as (Hc & es & Ht & HP).
  split; [done|]. exists es. split; [done|].
  eapply Forall_impl; [exact HP|]. auto.
Qed.

Lemma footprint_ret {A} P (a : A) : footprint P (mret a).
Proof. intros w. split; [done|]. exists []. by rewrite app_nil_r. Qed.

Lemma footprint_reject {A} P r : footprint P (@reject A r).
Proof. intros w. split; [done|]. exists []. by rewrite app_nil_r. Qed.

Lemma footprint_settle {A} P (o : Outcome A) : footprint P (settle o).
Proof. intros w. split; [done|]. exists []. by rewrite app_nil_r. Qed.

Lemma footprint_orThrow {A} P (o : option A) : footprint P (orThrow o).
Proof. destruct o; [apply footprint_ret | apply footprint_reject]. Qed.

Lemma footprint_emit (P : TransportConfig → Event → Prop) e :
  (∀ cfg, P cfg e) → footprint P (emit e).
Proof.
  intros He w. split; [done|]. exists [e]. split; [done|].
  constructor; [apply He | constructor].
Qed.

Lemma footprint_bind {A B} P (m : Async A) (k : A → Async B) :
  footprint P m → (∀ a, footprint P (k a)) → footprint P (m ≫= k).
Proof.
  intros Hm Hk w. destruct (Hm w) as (Hc & es & Ht & HP).
  unfold after in *. rewrite bind_run.
  destruct (m w) as [[a|r] w'] eqn:E; simpl in *.
  - destruct (Hk a w') as (Hc' & es' & Ht' & HP'). unfold after in *.
    split; [congruence|]. exists (es ++ es').
    rewrite Ht', Ht, Hc in *. rewrite app_assoc. split; [done|].
    by apply Forall_app.
  - split; [done|]. by exists es.
Qed.

Lemma footprint_exchange (P : TransportConfig → Event → Prop) c :
  (∀ cfg, P cfg (Sent c)) → footprint P (exchange c).
Proof.
  intros Hc w. unfold after, exchange.
  destruct (server w); (split; [done|]); exists [Sent c]; (split; [done|]);
    (constructor; [apply Hc | constructor]).
Qed.

Lemma footprint_apiRequest (P : TransportConfig → Event → Prop) c :
  (∀ cfg, P cfg (Sent c)) → (∀ cfg d, P cfg (Waited d)) →
  footprint P (apiRequest c).
Proof.
  intros Hs Hw. unfold apiRequest.
  apply footprint_bind; [by apply footprint_exchange|].
  intros [|r]; [apply footprint_reject|].
  case_bool_decide; [|apply footprint_settle].
  apply footprint_bind; [apply footprint_emit; auto|]. intros _.
  apply footprint_bind; [by apply footprint_exchange|].
  intros [|r']; [apply footprint_reject|].
  destruct (success r'); [apply footprint_settle | apply footprint_reject].
Qed.

Lemma footprint_assign P l k f : footprint P (assign l k f).
Proof.
  intros w. unfold after, assign.
  destruct (heap w !! l); (split; [done|]); exists []; by rewrite app_nil_r.
Qed.

Lemma footprint_deref P l : footprint P (deref l).
Proof.
  intros w. unfold after, deref.
  destruct (heap w !! l); (split; [done|]); exists []; by rewrite app_nil_r.
Qed.

Lemma footprint_configureRequest {T} (P : TransportConfig → Event → Prop)
    (request : RequestConfig T) :
  (∀ cfg, P cfg (Invoked (effectiveMode cfg (requestOptions request)))) →
  footprint P (api request) →
  (∀ action, cli request = Some action → footprint P action) →
  footprint P (configureRequest request).
Proof.
  intros Hi Ha Hc w. unfold after, configureRequest.
  pose proof (Hi (client w)) as Hi'.
  assert (∀ action : Async T, footprint P action → ∀ t, P (client w) (Invoked t) →
            client ((_ ← emit (Invoked t); action) w).2 = client w
            ∧ ∃ es, trace ((_ ← emit (Invoked t); action) w).2 = trace w ++ es
                    ∧ Forall (P (client w)) es) as Hrun.
  { intros action Hact t Ht.
    destruct (Hact (record (Invoked t) w)) as (Hcl & es & Htr & HP).
    unfold after in *. rewrite bind_run. simpl in *.
    split; [done|]. exists (Invoked t :: es).
    rewrite Htr, <- app_assoc. split; [done|]. by constructor. }
  destruct (effectiveMode (client w) (requestOptions request)).
  - by apply Hrun.
  - destruct (cli request) as [action|] eqn:E.
    + apply Hrun; [by apply Hc | done].
    + split; [done|]. exists []. by rewrite app_nil_r.
Qed.

Lemma keepsHeap_bind {A B} (m : Async A) (k : A → Async B) :
  keepsHeap m → (∀ a, keepsHeap (k a)) → keepsHeap (m ≫= k).
Proof.
  intros Hm Hk w. specialize (Hm w). unfold after in *. rewrite bind_run.
  destruct (m w) as [[a|r] w']; simpl in *; [|done].
  specialize (Hk a w'). unfold after in Hk. congruence.
Qed.

Lemma keepsHeap_exchange c : keepsHeap (exchange c).
Proof. intros w. unfold after, exchange. by destruct (server w). Qed.

Lemma keepsHeap_orThrow {A} (o : option A) : keepsHeap (orThrow o).
Proof. by destruct o. Qed.

Lemma keepsHeap_apiRequest c : keepsHeap (apiRequest c).
Proof.
  unfold apiRequest. apply keepsHeap_bind; [apply keepsHeap_exchange|].
  intros [|r]; [done|]. case_bool_decide; [|done].
  apply keepsHeap_bind; [done|]. intros _.
  apply keepsHeap_bind; [apply keepsHeap_exchange|].
  intros [|r']; [done|]. by destruct (success r').
Qed.

Lemma keepsHeap_deref l : keepsHeap (deref l).
Proof. intros w. unfold after, deref. by destruct (heap w !! l). Qed.

Lemma keepsHeap_configureRequest {T} (request : RequestConfig T) :
  keepsHeap (api request) →
  (∀ action, cli request = Some action → keepsHeap action) →
  keepsHeap (configureRequest request).
Proof.
  intros Ha Hc w. unfold after, configureRequest.
  destruct (effectiveMode (client w) (requestOptions request)).
  - rewrite bind_run. simpl. apply (Ha (record (Invoked API) w)).
  - destruct (cli request) as [action|] eqn:E; [|done].
    rewrite bind_run. simpl. apply (Hc action eq_refl (record (Invoked CLI) w)).
Qed.

(** The transport's trace, case by case on what the server answers. *)
Lemma apiRequest_events c w :
  events (apiRequest c) w =
    match server w with
    | Reply r :: _ =>
        if bool_decide (status r = 429)
        then [Sent c; Waited (default defaultRetryAfter (retryAfterHint r)); Sent c]
        else [Sent c]
    | _ => [Sent c]
    end.
Proof.
  apply events_spec. destruct w as [cfg hp answers tr].
  unfold after, apiRequest, exchange, mbind, Async_bind, emit, reject, settle, record.
  destruct answers as [|[|r] rest]; simpl; [done..|].
  case_bool_decide; simpl; [|done].
  destruct rest as [|[|r'] rest']; simpl; rewrite <- ?app_assoc; try done.
  by destruct (success r').
Qed.

Lemma footprint_verifyApi P payload expectedSignature signingKey :
  footprint P (Webhooks.verifyApi payload expectedSignature signingKey).
Proof. destruct payload; [apply footprint_ret | apply footprint_reject]. Qed.

Lemma keepsHeap_verifyApi payload expectedSignature signingKey :
  keepsHeap (Webhooks.verifyApi payload expectedSignature signingKey).
Proof. by destruct payload. Qed.

End laws.

Ltac solve_footprint :=
  repeat first
    [ apply footprint_ret | apply footprint_reject | apply footprint_settle
    | apply footprint_verifyApi
    | apply footprint_orThrow | apply footprint_assign | apply footprint_deref
    | apply footprint_apiRequest; [by intros | by intros]
    | apply footprint_configureRequest; [by intros | | by intros]
    | apply footprint_bind; [|intros]
    | match goal with |- footprint _ (if ?b then _ else _) => destruct b end ].

Lemma footprint_perform `{Platform} (op : Operation) : footprint (allowed op) (perform op).
Proof.
  destruct op; unfold perform, discard;
    (apply footprint_bind; [|intros; apply footprint_ret]).
  all: unfold Projects.info, Projects.list, Projects.create, Projects.update,
    Projects.delete, Projects.archive, Projects.unarchive, Shares.create,
    Shares.info, Webhooks.list, Webhooks.info, Webhooks.events, Webhooks.create,
    Webhooks.update, Webhooks.delete, Webhooks.ping, Webhooks.deliveries,
    Webhooks.redeliver, Webhooks.verify.
  all: solve_footprint.
Qed.


(** ** HTTP 429: one retry, then RateLimited *)

(** C4. When the first answer to a request is a 429, the transport waits the
    retry-after hint (the fixed default when the answer carries none) and
    sends the request exactly once more, consuming exactly two answers: the
    trace of the call is send, wait, send. If the retry is answered by a 2xx
    with a JSON body, the call resolves to that answer's envelope; if it is
    answered by a second 429, the call is rejected with RateLimited and
    nothing more is sent. *)
Theorem rate_limited_retry_once `{Platform} (c : ApiCall) (w : World)
    (r : HttpReply) (rest : list Exchange) :
  server w = Reply r :: rest →
  status r = 429 →
  let delay := default defaultRetryAfter (retryAfterHint r) in
  events (apiRequest c) w = [Sent c; Waited delay; Sent c]
  ∧ server (after (apiRequest c) w) = tail rest
  ∧ (∀ r' data,
       head rest = Some (Reply r') → success r' = true → parsed r' = Some data →
       outcome (apiRequest c) w = Resolved (envelope r' data))
  ∧ (∀ r',
       head rest = Some (Reply r') → status r' = 429 →
       outcome (apiRequest c) w = Rejected (Typed (RateLimited delay))).
Proof.
  intros Hserver H429 delay. split.
  { rewrite apiRequest_events, Hserver. by rewrite bool_decide_eq_true_2. }
  destruct w as [cfg hp answers tr]. simpl in Hserver. subst answers.
  unfold outcome, after, apiRequest, exchange, mbind, Async_bind, emit, reject,
    settle, record. simpl.
  rewrite bool_decide_eq_true_2 by done. simpl.
  split; [|split].
  - destruct rest as [|[|r'] rest']; simpl; try done. by destruct (success r').
  - intros r' data Hhead Hok Hbody.
    destruct rest as [|x rest']; simplify_eq/=.
    rewrite Hok. simpl. unfold interpret. by rewrite Hok, Hbody.
  - intros r' Hhead Hagain.
    destruct rest as [|x rest']; simplify_eq/=.
    assert (success r' = false) as ->; [|done].
    unfold success. apply bool_decide_eq_false_2. lia.
Qed.

(** A 429 with a hint of 5, then a 200: one wait of 5, one retry, the
    envelope of the second answer. *)
Lemma rate_limited_retry_once_witness :
  let c := call "projects/p1" None None (Some Projects.headers) in
  let w := world apiClient [tooMany (Some 5); ok (JStr "fine")] in
  events (apiRequest (H := toyPlatform) c) w = [Sent c; Waited 5; Sent c]
  ∧ outcome (apiRequest (H := toyPlatform) c) w
    = Resolved
        (envelope {| status := 200; retryAfterHint := None;
                     parsed := Some (JStr "fine") |} (JStr "fine")).
Proof.
  intros c w.
  destruct (rate_limited_retry_once (H := toyPlatform) c w
              {| status := 429; retryAfterHint := Some 5; parsed := None |}
              [ok (JStr "fine")] eq_refl eq_refl) as (Hev & _ & Hok & _).
  split; [exact Hev|].
  apply Hok; reflexivity.
Defined.

(** ** Dispatch: one transport per call *)

Lemma invoked_silent cfg es : Forall (silent cfg) es → invoked es = [].
Proof.
  induction 1 as [|e es He _ IH]; [done|].
  unfold invoked in *. simpl. destruct e; simpl in *; done.
Qed.

Lemma configureRequest_selected {T} (request : RequestConfig T) w t (action : Async T) :
  configureRequest request w = (_ ← emit (Invoked t); action) w →
  footprint silent action →
  configureRequest request w = action (record (Invoked t) w)
  ∧ events (configureRequest request) w
    = Invoked t :: events action (record (Invoked t) w)
  ∧ invoked (events (configureRequest request) w) = [t]
  ∧ outcome (configureRequest request) w = outcome action (record (Invoked t) w).
Proof.
  intros Hrun Hact.
  change ((_ ← emit (Invoked t); action) w) with (action (record (Invoked t) w)) in Hrun.
  destruct (Hact (record (Invoked t) w)) as (_ & es & Ht & Hes).
  assert (events (configureRequest request) w = Invoked t :: es) as Hevents.
  { apply events_spec. unfold after in *. rewrite Hrun, Ht. simpl.
    by rewrite <- app_assoc. }
  split; [done|]. split; [|split].
  - by rewrite Hevents, (events_spec _ _ _ Ht).
  - rewrite Hevents. unfold invoked. simpl. fold (invoked es).
    f_equal. by eapply invoked_silent.
  - unfold outcome. by rewrite Hrun.
Qed.

(** C3, as amended. A dispatched call is the run of the action of its
    effective mode and of nothing else. In API mode the call is the HTTP
    action's run: it settles as that action settles, failure included, it
    leaves the world that action leaves, and its events are the invocation of
    the HTTP action followed by that action's own, so nothing the CLI action
    would do happens. In CLI mode with a CLI action supplied the same holds
    of the CLI action. In CLI mode with no CLI action supplied neither action
    is invoked, the world is untouched, and the call is rejected with
    ConfigurationError. *)
Theorem dispatch_runs_selected_action {T : Type} (request : RequestConfig T)
    (w : World) :
  footprint silent (api request) →
  (∀ action, cli request = Some action → footprint silent action) →
  let es := events (configureRequest request) w in
  let result := outcome (configureRequest request) w in
  match effectiveMode (client w) (requestOptions request), cli request with
  | API, _ =>
      configureRequest request w = api request (record (Invoked API) w)
      ∧ es = Invoked API :: events (api request) (record (Invoked API) w)
      ∧ invoked es = [API]
      ∧ result = outcome (api request) (record (Invoked API) w)
  | CLI, Some action =>
      configureRequest request w = action (record (Invoked CLI) w)
      ∧ es = Invoked CLI :: events action (record (Invoked CLI) w)
      ∧ invoked es = [CLI]
      ∧ result = outcome action (record (Invoked CLI) w)
  | CLI, None =>
      configureRequest request w = (Rejected (Typed ConfigurationError), w)
      ∧ es = []
      ∧ invoked es = []
      ∧ result = Rejected (Typed ConfigurationError)
  end.
Proof.
  intros Hapi Hcli es result. subst es result.
  destruct (effectiveMode (client w) (requestOptions request)) eqn:Hmode.
  - apply configureRequest_selected; [|done].
    unfold configureRequest. by rewrite Hmode.
  - destruct (cli request) as [action|] eqn:Haction.
    + apply configureRequest_selected; [|by apply Hcli].
      unfold configureRequest. by rewrite Hmode, Haction.
    + unfold events, outcome, after, configureRequest.
      rewrite Hmode, Haction. simpl. by rewrite drop_all.
Qed.

(** A request whose two actions each send a call of their own, on a
    CLI-configured client, overridden to API for this call: the HTTP
    action's call is the only one sent, and its failure (the server is
    unreachable) is the call's. *)
Lemma dispatch_runs_selected_action_witness :
  let request := {|
    api := apiRequest (H := toyPlatform) (call "http-action" None None None);
    cli := Some (apiRequest (H := toyPlatform) (call "cli-action" None None None));
    requestOptions := {| transportMode := Some API; optHeaders := None |}
  |} in
  let w := world cliClient [] in
  events (configureRequest request) w
  = [Invoked API; Sent (call "http-action" None None None)]
  ∧ invoked (events (configureRequest request) w) = [API]
  ∧ outcome (configureRequest request) w = Rejected (Typed NetworkError).
Proof.
  intros request w.
  assert (footprint silent (api request)) as Hapi.
  { apply (footprint_apiRequest (H := toyPlatform)); intros; exact I. }
  assert (∀ action, cli request = Some action → footprint silent action) as Hcli.
  { intros action [= <-].
    apply (footprint_apiRequest (H := toyPlatform)); intros; exact I. }
  destruct (dispatch_runs_selected_action request w Hapi Hcli)
    as (_ & Hevents & Hinvoked & Hresult).
  split; [exact Hevents|]. split; [exact Hinvoked | exact Hresult].
Defined.

(** C3 as stated fails: a call in CLI mode that supplies only the HTTP
    action invokes neither action. *)
Lemma dispatch_cli_without_action_invokes_none :
  let request := {|
    api := apiRequest (H := toyPlatform) (call "projects" None None None);
    cli := None;
    requestOptions := {| transportMode := Some CLI; optHeaders := None |}
  |} in
  let w := world apiClient [ok JNull] in
  invoked (events (configureRequest request) w) = []
  ∧ outcome (configureRequest request) w = Rejected (Typed ConfigurationError).
Proof. split; reflexivity. Qed.

(** ** Webhooks.verify *)









(** ** Per-call transport mode *)

Lemma after_discard {A} (m : Async A) w : after (discard m) w = after m w.
Proof.
  unfold after, discard. rewrite bind_run. by destruct (m w) as [[a|r] w'].
Qed.

Lemma events_discard {A} (m : Async A) w : events (discard m) w = events m w.
Proof. unfold events. by rewrite after_discard. Qed.

Lemma perform_events `{Platform} (op : Operation) w :
  Forall (allowed op (client w)) (events (perform op) w).
Proof.
  destruct (footprint_perform op w) as (_ & es & Ht & HP).
  by rewrite (events_spec _ _ _ Ht).
Qed.

Lemma invoked_allowed `{Platform} (op : Operation) cfg es :
  Forall (allowed op cfg) es →
  Forall (λ t, t = effectiveMode cfg (optionsOf op)) (invoked es).
Proof.
  induction 1 as [|e es He _ IH]; [constructor|].
  unfold invoked in *. destruct e; simpl in *; [constructor|..]; done.
Qed.

Lemma sent_allowed `{Platform} (op : Operation) cfg es :
  Forall (allowed op cfg) es →
  Forall (λ c, header c "Abstract-Api-Version" = pinnedVersion op) (sent es).
Proof.
  induction 1 as [|e es He _ IH]; [constructor|].
  unfold sent in *. destruct e; simpl in *; [|constructor|]; done.
Qed.

Lemma list_api_override `{Platform} d (o : Projects.ListOptions) w :
  transportMode (Projects.others o) = Some API →
  invoked (events (Projects.list d o) w) = [API].
Proof.
  intros Hmode. unfold Projects.list.
  eapply (λ Hrun Hact, proj1 (proj2 (proj2 (configureRequest_selected _ _ _ _ Hrun Hact)))).
  - unfold configureRequest, effectiveMode. simpl. rewrite Hmode. reflexivity.
  - apply footprint_bind; [by apply footprint_apiRequest|]. intros response.
    destruct (truthy (Projects.sectionId o)); solve_footprint.
Qed.

(** C7. Whatever the operation and its options, the call leaves the Client's
    TransportConfig (mode, base URL, CLI path, token, default headers) as it
    found it; the only transport it can invoke is the one its own options
    name, or the Client's configured one when they name none; and the mode
    any other call selects afterwards is the one it would have selected
    before. For [Projects.list], an API override runs the HTTP path even on a
    Client configured for CLI. *)
Theorem transportMode_override_is_per_call `{Platform} (op : Operation) (w : World) :
  let w' := after (perform op) w in
  client w' = client w
  ∧ Forall (λ t, t = default (mode (client w)) (transportMode (optionsOf op)))
      (invoked (events (perform op) w))
  ∧ (∀ op', effectiveMode (client w') (optionsOf op')
            = effectiveMode (client w) (optionsOf op'))
  ∧ (∀ d o, op = ProjectsList d o →
            transportMode (Projects.others o) = Some API →
            invoked (events (perform op) w) = [API]).
Proof.
  intros w'. subst w'.
  destruct (footprint_perform op w) as (Hclient & _).
  split; [done|]. split; [|split].
  - apply (invoked_allowed op), perform_events.
  - intros op'. by rewrite Hclient.
  - intros d o -> Hmode. simpl. rewrite events_discard.
    by apply list_api_override.
Qed.

(** A closed instance: a Client configured for CLI, [Projects.list] called
    with an API override. The HTTP path runs, and the Client is still
    configured for CLI afterwards. *)
Lemma transportMode_override_is_per_call_witness :
  let options := {|
    Projects.filter := None; Projects.sectionId := None;
    Projects.others := {| transportMode := Some API; optHeaders := None |}
  |} in
  let op := ProjectsList (H := toyPlatform) (Organization "org") options in
  let w := world cliClient [ok (JObj {[ "projects" := JArr [] ]})] in
  client (after (perform op) w) = cliClient
  ∧ invoked (events (perform op) w) = [API].
Proof.
  intros options op w.
  destruct (transportMode_override_is_per_call op w) as (Hclient & _ & _ & Hlist).
  split; [exact Hclient|].
  exact (Hlist (Organization "org") options eq_refl eq_refl).
Defined.

(** ** Requests on the wire *)

Lemma trace_after {A} P (m : Async A) w :
  footprint P m → trace (after m w) = trace w ++ events m w.
Proof.
  intros Hm. destruct (Hm w) as (_ & es & Ht & _).
  by rewrite (events_spec _ _ _ Ht).
Qed.

(** An operation that is one [apiRequest] and nothing else. *)
Lemma simple_events `{Platform} c ro w :
  events (configureRequest {| api := apiRequest c; cli := None; requestOptions := ro |}) w
  = match effectiveMode (client w) ro with
    | API => Invoked API :: events (apiRequest c) (record (Invoked API) w)
    | CLI => []
    end.
Proof.
  apply events_spec. unfold after, configureRequest. simpl.
  destruct (effectiveMode (client w) ro).
  - change ((_ ← emit (Invoked API); apiRequest c) w)
      with (apiRequest c (record (Invoked API) w)).
    fold (after (apiRequest c) (record (Invoked API) w)).
    rewrite (trace_after (λ _ _, True)) by (by apply footprint_apiRequest).
    simpl. by rewrite <- app_assoc.
  - simpl. by rewrite app_nil_r.
Qed.

Lemma sent_apiRequest `{Platform} c w :
  ∃ rest, sent (events (apiRequest c) w) = c :: rest ∧ Forall (λ c', c' = c) rest.
Proof.
  rewrite apiRequest_events.
  destruct (server w) as [|[|r] ?]; [by exists []..|].
  case_bool_decide; [exists [c] | exists []]; split; repeat constructor.
Qed.

Lemma sent_invoked t es : sent (Invoked t :: es) = sent es.
Proof. reflexivity. Qed.

(** C9. [Webhooks.update] is [Webhooks.create]: for every organization
    descriptor, webhook and options they are the same computation. Every
    request either sends is a POST to
    [organizations/{organizationId}/webhooks/subscribe] with body
    [{subscription: webhook}] and no headers of its own, and in API mode
    that request is sent. *)
Theorem webhooks_update_is_create `{Platform} (descriptor : OrganizationDescriptor)
    (webhook : JSON) (ro : RequestOptions) :
  let request :=
    call ("organizations/" +:+ organizationId descriptor +:+ "/webhooks/subscribe")
      (Some POST) (Some (JObj {[ "subscription" := webhook ]})) None in
  Webhooks.update descriptor webhook ro = Webhooks.create descriptor webhook ro
  ∧ ∀ w,
      Forall (λ c, c = request) (sent (events (Webhooks.update descriptor webhook ro) w))
      ∧ Forall (λ c, c = request) (sent (events (Webhooks.create descriptor webhook ro) w))
      ∧ (effectiveMode (client w) ro = API →
         ∃ rest, sent (events (Webhooks.update descriptor webhook ro) w) = request :: rest).
Proof.
  intros request. split; [reflexivity|]. intros w.
  unfold Webhooks.update, Webhooks.create. fold request. rewrite simple_events.
  destruct (effectiveMode (client w) ro).
  - destruct (sent_apiRequest request (record (Invoked API) w)) as (rest & Hs & Hrest).
    rewrite !sent_invoked, Hs.
    repeat split; try (by constructor). eauto.
  - repeat split; try constructor. discriminate.
Qed.

(** ** The Abstract-Api-Version header *)

Lemma dispatch_events {T} P (request : RequestConfig T) w :
  footprint P (api request) →
  effectiveMode (client w) (requestOptions request) = API →
  events (configureRequest request) w
  = Invoked API :: events (api request) (record (Invoked API) w).
Proof.
  intros Hapi Hmode. apply events_spec. unfold after, configureRequest.
  rewrite Hmode.
  change ((_ ← emit (Invoked API); api request) w)
    with (api request (record (Invoked API) w)).
  fold (after (api request) (record (Invoked API) w)).
  rewrite (trace_after P) by done. simpl. by rewrite <- app_assoc.
Qed.

Lemma dispatch_events_cli {T} (request : RequestConfig T) w :
  effectiveMode (client w) (requestOptions request) = CLI →
  cli request = None →
  events (configureRequest request) w = [].
Proof.
  intros Hmode Hcli. apply events_spec. unfold after, configureRequest.
  rewrite Hmode, Hcli. simpl. by rewrite app_nil_r.
Qed.

Lemma events_bind {A B} P (m : Async A) (k : A → Async B) w :
  footprint P m → (∀ a, footprint P (k a)) →
  ∃ rest, events (m ≫= k) w = events m w ++ rest.
Proof.
  intros Hm Hk. pose proof (trace_after P m w Hm) as Ht.
  unfold events at 1. unfold after in *. rewrite bind_run.
  destruct (m w) as [[a|r] w'] eqn:E; simpl in *.
  - exists (events (k a) w').
    pose proof (trace_after P (k a) w' (Hk a)) as Ht'. unfold after in Ht'.
    by rewrite Ht', Ht, <- app_assoc, drop_app_length.
  - exists []. by rewrite Ht, drop_app_length, app_nil_r.
Qed.

Lemma sends_first `{Platform} {T} c (k : JSON → Async T) ro w :
  (∀ a, footprint (λ _ _, True) (k a)) →
  effectiveMode (client w) ro = API →
  ∃ rest,
    sent (events (configureRequest
                    {| api := apiRequest c ≫= k; cli := None; requestOptions := ro |}) w)
    = c :: rest.
Proof.
  intros Hk Hmode.
  assert (footprint (λ _ _, True) (apiRequest c)) as Hc
    by (by apply footprint_apiRequest).
  rewrite (dispatch_events (λ _ _, True)); [|by apply footprint_bind|done].
  rewrite sent_invoked. simpl.
  destruct (events_bind (λ _ _, True) (apiRequest c) k (record (Invoked API) w) Hc Hk)
    as (rest & ->).
  destruct (sent_apiRequest c (record (Invoked API) w)) as (rest' & Hs & _).
  unfold sent in *. rewrite omap_app, Hs. simpl. eauto.
Qed.

(** C5, as amended. Every call [Projects.info] and [Projects.list] hand to
    the transport carries [Abstract-Api-Version: 22], and every call of a
    Shares operation carries [Abstract-Api-Version: 13], retries included; in
    API mode each of these operations does send a call. The other Projects
    operations (create, update, delete, archive, unarchive), like the
    Webhooks operations, name no [Abstract-Api-Version] header on their
    calls. *)
Theorem version_header_per_operation `{Platform} (op : Operation) (w : World) :
  Forall (λ c, header c "Abstract-Api-Version" = pinnedVersion op)
    (sent (events (perform op) w))
  ∧ (effectiveMode (client w) (optionsOf op) = API →
     is_Some (pinnedVersion op) →
     ∃ c rest, sent (events (perform op) w) = c :: rest).
Proof.
  split; [apply (sent_allowed op (client w)), perform_events|].
  intros Hmode [v Hv].
  destruct op; simplify_eq/=; rewrite events_discard.
  - unfold Projects.info. eexists. apply sends_first; [|done]. intros. solve_footprint.
  - unfold Projects.list. eexists. apply sends_first; [|done]. intros. solve_footprint.
  - unfold Shares.create. rewrite simple_events, Hmode, sent_invoked.
    destruct (sent_apiRequest
                (call "share_links" (Some POST) (Some (Shares.createBody d shareInput))
                   (Some Shares.headers))
                (record (Invoked API) w)) as (rest & -> & _). eauto.
  - unfold Shares.info. rewrite simple_events, Hmode, sent_invoked.
    destruct (sent_apiRequest
                (call ("share_links/" +:+ inferShareId d) None None (Some Shares.headers))
                (record (Invoked API) w)) as (rest & -> & _). eauto.
Qed.

(** [Projects.info] on an API Client: the call sent carries version 22. *)
Lemma version_header_per_operation_witness :
  let op := ProjectsInfo (H := toyPlatform) (Project "p1") noOptions in
  let w := world apiClient [ok JNull] in
  Forall (λ c, header c "Abstract-Api-Version" = Some "22")
    (sent (events (perform op) w))
  ∧ ∃ c rest, sent (events (perform op) w) = c :: rest.
Proof.
  intros op w.
  destruct (version_header_per_operation op w) as (Hall & Hsome).
  split; [exact Hall|].
  apply Hsome; [reflexivity | by eexists].
Defined.

(** C5 as stated fails: the call [Projects.create] sends on an API Client
    carries no [Abstract-Api-Version] header. *)
Lemma projects_create_sends_no_version :
  let w := {|
    client := apiClient;
    heap := {[ 1%positive := {[ "name" := Some (JStr "New Project") ]} ]};
    server := [ok JNull];
    trace := []
  |} in
  let run := Projects.create (H := toyPlatform) (Organization "org") 1 noOptions in
  (λ c, (path c, method c, header c "Abstract-Api-Version")) <$> sent (events run w)
  = [("projects", Some POST, None)].
Proof. vm_compute. reflexivity. Qed.

(** ** Projects.create and Projects.update write to the caller's object *)

(** What both methods do from the assignment on, for any request they
    build from the object at [project]. *)
Lemma assign_then_request `{Platform} (project : loc) (o : Obj) (w : World)
    (p : string) (m : Method) (ro : RequestOptions) :
  heap w !! project = Some o →
  let o' := <["about" := prop o "description"]> o in
  let run : Async Payload :=
    _ ← assign project "about" (λ o, prop o "description");
    configureRequest {|
      api :=
        sent ← deref project;
        response ← apiRequest (call p (Some m) (Some sent) None);
        mret (wrap (Some response) None);
      cli := None;
      requestOptions := ro
    |} in
  heap (after run w) = <[project := o']> (heap w)
  ∧ Forall (λ c, body c = Some (snapshot o')) (sent (events run w)).
Proof.
  intros Hheap o' run. subst run.
  set (w1 := {| client := client w; heap := <[project := o']> (heap w);
                server := server w; trace := trace w |}).
  set (request := {| api := _; cli := None; requestOptions := ro |}).
  assert ((_ ← assign project "about" (λ o, prop o "description");
           configureRequest request) w = configureRequest request w1) as Hrun.
  { rewrite bind_run. unfold assign. by rewrite Hheap. }
  unfold events, after. rewrite Hrun. split.
  - apply (keepsHeap_configureRequest request); [|done].
    apply keepsHeap_bind; [apply keepsHeap_deref|]. intros ?.
    apply keepsHeap_bind; [apply keepsHeap_apiRequest|]. done.
  - change (trace w) with (trace w1).
    fold (after (configureRequest request) w1).
    fold (events (configureRequest request) w1).
    destruct (effectiveMode (client w1) (requestOptions request)) eqn:Hmode.
    2:{ rewrite dispatch_events_cli by done. constructor. }
    rewrite (dispatch_events (λ _ _, True)); [|subst request; simpl; solve_footprint|done].
    rewrite sent_invoked.
    set (c := call p (Some m) (Some (snapshot o')) None).
    set (k := λ response : JSON, mret (M := Async) (wrap (Some response) None)).
    assert (events (api request) (record (Invoked API) w1)
            = events (apiRequest c ≫= k) (record (Invoked API) w1)) as ->.
    { unfold events, after. subst request. simpl. rewrite bind_run.
      unfold deref at 1. simpl. by rewrite lookup_insert_eq. }
    assert (footprint (λ _ e, match e with Sent c' => c' = c | _ => True end)
              (apiRequest c ≫= k)) as Hfp.
    { apply footprint_bind; [by apply footprint_apiRequest|].
      intros. apply footprint_ret. }
    destruct (Hfp (record (Invoked API) w1)) as (_ & es & Ht & Hes).
    rewrite (events_spec _ _ _ Ht).
    clear -Hes. induction Hes as [|e es He _ IH]; [constructor|].
    unfold sent in *. destruct e; simpl in *; [done| |done].
    constructor; [by subst|done].
Qed.

(** C8. [Projects.create] and [Projects.update] write to the object the
    caller passed: after the call, whatever the effective mode and however
    the call settles, the object's [about] holds the value its [description]
    had (the other objects and properties are as before), and every request
    the call sends carries the object as written. *)
Theorem create_update_overwrite_about `{Platform} (project : loc) (o : Obj)
    (w : World) (ro : RequestOptions) :
  heap w !! project = Some o →
  let o' := <["about" := prop o "description"]> o in
  (∀ descriptor,
     heap (after (Projects.create descriptor project ro) w) = <[project := o']> (heap w)
     ∧ Forall (λ c, body c = Some (snapshot o'))
         (sent (events (Projects.create descriptor project ro) w)))
  ∧ (∀ descriptor,
       heap (after (Projects.update descriptor project ro) w) = <[project := o']> (heap w)
       ∧ Forall (λ c, body c = Some (snapshot o'))
           (sent (events (Projects.update descriptor project ro) w))).
Proof.
  intros Hheap o'. split; intros descriptor.
  - exact (assign_then_request project o w "projects" POST ro Hheap).
  - exact (assign_then_request project o w
             ("projects/" +:+ projectId descriptor) PUT ro Hheap).
Qed.

(** A new project with a description and no [about], created on an API
    Client: afterwards the caller's object has [about] set to the
    description, and the request sent carried it. *)
Lemma create_update_overwrite_about_witness :
  let o : Obj := {[ "name" := Some (JStr "New Project");
                    "description" := Some (JStr "Screens") ]} in
  let o' : Obj := <["about" := Some (JStr "Screens")]> o in
  let w := {| client := apiClient; heap := {[ 1%positive := o ]};
              server := [ok JNull]; trace := [] |} in
  let run := Projects.create (H := toyPlatform) (Organization "org") 1 noOptions in
  heap (after run w) = <[1%positive := o']> (heap w)
  ∧ Forall (λ c, body c = Some (snapshot o')) (sent (events run w)).
Proof.
  intros o o' w run.
  exact (proj1 (create_update_overwrite_about (H := toyPlatform) 1%positive o w
                  noOptions eq_refl) (Organization "org")).
Defined.

(** ** Projects.list and its section filter *)

Lemma filterM_inSection (s : string) (items : list JSON) :
  Forall (λ project, project ≠ JNull) items →
  filterM (λ project,
             v ← member (Some project) "sectionId";
             Some (strict_eq_str v (Some s))) items
  = Some (filter (inSection s) items).
Proof.
  induction 1 as [|x items Hx _ IH]; [done|].
  cbn [filterM]. rewrite IH, filter_cons.
  assert (∃ v, member (Some x) "sectionId" = Some v) as [v Hv].
  { destruct x; simpl; eauto. done. }
  rewrite Hv. simpl. f_equal.
  assert (strict_eq_str v (Some s) = true ↔ inSection s x) as Hiff.
  { unfold inSection. rewrite Hv.
    destruct v as [[| | |s'| |]|]; simpl; try (split; [done|by intros [=]]).
    rewrite bool_decide_eq_true. split; [by intros ->|by intros [=]]. }
  destruct (decide (inSection s x)) as [Hin|Hout].
  - by rewrite (proj2 Hiff Hin).
  - destruct (strict_eq_str v (Some s)); [|done]. destruct Hout. by apply Hiff.
Qed.

#[local] Arguments member : simpl never.

(** C10, as amended. In API mode, when the transport resolves the request
    to a response whose [data.projects] is an array of projects:
    called with a non-empty [sectionId], [Projects.list] resolves to exactly
    those projects of the array, in order, whose [sectionId] is the given
    one; called without [sectionId], or with the empty string, it resolves
    to the full array. *)
Theorem list_filters_by_sectionId `{Platform} (descriptor : OrganizationDescriptor)
    (options : Projects.ListOptions) (w : World) (response : JSON)
    (items : list JSON) :
  let request :=
    call ("projects?" +:+ Projects.listQuery descriptor (Projects.filter options)
                             (Projects.sectionId options))
      None None (Some Projects.headers) in
  effectiveMode (client w) (Projects.others options) = API →
  outcome (apiRequest request) (record (Invoked API) w) = Resolved response →
  (data ← member (Some response) "data"; member data "projects")
    = Some (Some (JArr items)) →
  Forall (λ project, project ≠ JNull) items →
  outcome (Projects.list descriptor options) w
  = Resolved
      match Projects.sectionId options with
      | Some s =>
          if decide (s = "") then wrap (Some (JArr items)) (Some response)
          else Plain (Some (JArr (filter (inSection s) items)))
      | None => wrap (Some (JArr items)) (Some response)
      end.
Proof.
  intros request Hmode Hresponse Hprojects Hitems.
  unfold Projects.list, outcome, configureRequest. simpl. rewrite Hmode.
  change ((_ ← emit (Invoked API); ?m) w) with (m (record (Invoked API) w)).
  rewrite bind_run. fold request.
  unfold outcome in Hresponse.
  destruct (apiRequest request (record (Invoked API) w)) as [result w'].
  simpl in Hresponse. subst result.
  destruct (member (Some response) "data") as [data|] eqn:Hdata; [|done].
  simpl in Hprojects.
  destruct (Projects.sectionId options) as [s|] eqn:Hs; simpl.
  - destruct (decide (s = "")) as [->|Hne]; simpl.
    + rewrite bind_run. simpl. rewrite Hprojects. reflexivity.
    + rewrite bool_decide_eq_false_2 by done. simpl.
      rewrite bind_run. simpl. rewrite Hprojects. simpl.
      rewrite bind_run. simpl. unfold arrayFilter.
      rewrite filterM_inSection by done. reflexivity.
  - rewrite bind_run. simpl. rewrite Hprojects. reflexivity.
Qed.

(** Two projects, in sections "a" and "b", listed with [sectionId: "a"]: the
    call resolves to the first alone. *)
Lemma list_filters_by_sectionId_witness :
  let p1 := JObj {[ "id" := JStr "p1"; "sectionId" := JStr "a" ]} in
  let p2 := JObj {[ "id" := JStr "p2"; "sectionId" := JStr "b" ]} in
  let w := world apiClient [ok (JObj {[ "projects" := JArr [p1; p2] ]})] in
  let options := {|
    Projects.filter := None; Projects.sectionId := Some "a";
    Projects.others := noOptions
  |} in
  outcome (Projects.list (H := toyPlatform) (Organization "org") options) w
  = Resolved (Plain (Some (JArr [p1]))).
Proof.
  intros p1 p2 w options.
  rewrite (list_filters_by_sectionId (H := toyPlatform) (Organization "org") options w
             (envelope {| status := 200; retryAfterHint := None;
                          parsed := Some (JObj {[ "projects" := JArr [p1; p2] ]}) |}
                (JObj {[ "projects" := JArr [p1; p2] ]}))
             [p1; p2]).
  - reflexivity.
  - reflexivity.
  - reflexivity.
  - reflexivity.
  - repeat constructor; discriminate.
Defined.

(** C10 as stated fails: called with the empty string as [sectionId], on a
    response whose only project is in section "a", [Projects.list] resolves
    to the full array, though no project of it has the empty string as its
    [sectionId]. *)
Lemma list_empty_sectionId_resolves_to_all :
  let p1 := JObj {[ "id" := JStr "p1"; "sectionId" := JStr "a" ]} in
  let body := JObj {[ "projects" := JArr [p1] ]} in
  let w := world apiClient [ok body] in
  let options := {|
    Projects.filter := None; Projects.sectionId := Some "";
    Projects.others := noOptions
  |} in
  outcome (Projects.list (H := toyPlatform) (Organization "org") options) w
  = Resolved
      (wrap (Some (JArr [p1]))
         (Some (envelope {| status := 200; retryAfterHint := None;
                            parsed := Some body |} body)))
  ∧ filter (inSection "") [p1] = [].
Proof. split; reflexivity. Qed.

(** * Further properties of the endpoints *)

(** ** Paths and bodies *)

Ltac solve_shape :=
  intros; simpl; first [exact I | split; vm_compute; reflexivity | reflexivity].

Ltac solve_footprint_shaped :=
  repeat first
    [ apply footprint_ret | apply footprint_reject | apply footprint_settle
    | apply footprint_verifyApi
    | apply footprint_orThrow | apply footprint_assign | apply footprint_deref
    | apply footprint_apiRequest; [solve_shape | solve_shape]
    | apply footprint_configureRequest; [solve_shape | | by intros]
    | apply footprint_bind; [|intros]
    | match goal with |- footprint _ (if ?b then _ else _) => destruct b end ].

Lemma footprint_shaped `{Platform} (op : Operation) : footprint (shaped op) (perform op).
Proof.
  destruct op; unfold perform, discard;
    (apply footprint_bind; [|intros; apply footprint_ret]).
  all: unfold Projects.info, Projects.list, Projects.create, Projects.update,
    Projects.delete, Projects.archive, Projects.unarchive, Shares.create,
    Shares.info, Webhooks.list, Webhooks.info, Webhooks.events, Webhooks.create,
    Webhooks.update, Webhooks.delete, Webhooks.ping, Webhooks.deliveries,
    Webhooks.redeliver, Webhooks.verify.
  all: solve_footprint_shaped.
Qed.

Lemma startsWith_append (root s : string) :
  startsWith root s = true → ∃ rest, s = root +:+ rest.
Proof.
  revert s. induction root as [|a root IH]; intros s Hs.
  - by exists s.
  - destruct s as [|b s]; [done|]. simpl in Hs.
    apply andb_prop in Hs as [Hab Hs]. apply bool_decide_eq_true_1 in Hab as ->.
    destruct (IH s Hs) as [rest ->]. by exists rest.
Qed.

Lemma sent_shaped `{Platform} (op : Operation) cfg es :
  Forall (shaped op cfg) es →
  Forall (λ c, startsWith (rootOf (resource op)) (path c) = true
               ∧ writesOnly c = true) (sent es).
Proof.
  induction 1 as [|e es He _ IH]; [constructor|].
  unfold sent in *. destruct e; simpl in *; [done| |done]. by constructor.
Qed.

Lemma perform_shaped `{Platform} (op : Operation) w :
  Forall (λ c, startsWith (rootOf (resource op)) (path c) = true
               ∧ writesOnly c = true) (sent (events (perform op) w)).
Proof.
  destruct (footprint_shaped op w) as (_ & es & Ht & HP).
  rewrite (events_spec _ _ _ Ht). by eapply sent_shaped.
Qed.

(** X1. An operation stays inside its resource's part of the API: every
    call a Projects operation sends has a path that starts with [projects],
    every call of a Shares operation one that starts with [share_links], and
    every call of a Webhooks operation one that starts with
    [organizations/]. *)
Theorem paths_stay_in_resource `{Platform} (op : Operation) (w : World) :
  Forall (λ c, ∃ rest, path c = rootOf (resource op) +:+ rest)
    (sent (events (perform op) w)).
Proof.
  eapply Forall_impl; [apply perform_shaped|].
  intros c [Hp _]. by apply startsWith_append.
Qed.

(** X2. Only writes carry a body: on every call an operation sends, the
    body is absent unless the method is POST or PUT. Reads (no method) and
    DELETE never carry one. *)
Theorem bodies_only_on_post_and_put `{Platform} (op : Operation) (w : World) :
  Forall (λ c, match method c with
               | Some POST | Some PUT => True
               | _ => body c = None
               end)
    (sent (events (perform op) w)).
Proof.
  eapply Forall_impl; [apply perform_shaped|].
  intros c [_ Hw]. unfold writesOnly in Hw.
  destruct (method c) as [[]|], (body c); done.
Qed.

(** [Webhooks.delete] on an API Client: one DELETE under [organizations/],
    without a body. *)
Lemma paths_and_bodies_example :
  let op := WebhooksDelete (H := toyPlatform) (Webhook "org" "hook") noOptions in
  let w := world apiClient [ok JNull] in
  sent (events (perform op) w)
  = [call "organizations/org/webhooks/hook/unsubscribe" (Some DELETE) None None].
Proof. reflexivity. Qed.

(** ** The body of Shares.create *)

(** X3. The body [Shares.create] sends, key by key: [commitSha] is the
    input's [sha], whatever [commitSha] the input carries itself; any other
    key the input has is the input's, [organizationId] included (a key the
    input holds as [undefined] is left out); and [organizationId] comes from
    the descriptor only when the input has no such key. *)
Theorem share_body_keys (descriptor : OrganizationDescriptor) (shareInput : Obj)
    (k : string) :
  member (Some (Shares.createBody descriptor shareInput)) k
  = Some
      (if decide (k = "commitSha") then prop shareInput "sha"
       else match shareInput !! k with
            | Some v => v
            | None =>
                if decide (k = "organizationId")
                then Some (JStr (organizationId descriptor))
                else None
            end).
Proof.
  unfold Shares.createBody, snapshot, member, prop, spread. f_equal.
  rewrite lookup_omap.
  destruct (decide (k = "commitSha")) as [->|Hk].
  - rewrite lookup_insert_eq. simpl. by destruct (shareInput !! "sha").
  - rewrite lookup_insert_ne by done. rewrite lookup_union.
    destruct (shareInput !! k) as [v|] eqn:Hv; simpl.
    + by destruct ({[ "organizationId" := _ ]} !! k).
    + destruct (decide (k = "organizationId")) as [->|Ho].
      * by rewrite lookup_singleton_eq.
      * by rewrite lookup_singleton_ne.
Qed.

(** The call [Shares.create] sends carries that body, under
    [share_links]. *)
Lemma share_body_sent `{Platform} (descriptor : OrganizationDescriptor)
    (shareInput : Obj) (ro : RequestOptions) (w : World) :
  Forall (λ c, c = call "share_links" (Some POST)
                     (Some (Shares.createBody descriptor shareInput))
                     (Some Shares.headers))
    (sent (events (Shares.create descriptor shareInput ro) w)).
Proof.
  unfold Shares.create. rewrite simple_events.
  destruct (effectiveMode (client w) ro); [|constructor].
  rewrite sent_invoked.
  destruct (sent_apiRequest
              (call "share_links" (Some POST)
                 (Some (Shares.createBody descriptor shareInput)) (Some Shares.headers))
              (record (Invoked API) w)) as (rest & -> & Hrest).
  by constructor.
Qed.

(** ** More on Projects.create and Projects.update *)

Lemma prop_insert_ne (o : Obj) (k k' : string) (v : Value) :
  k ≠ k' → prop (<[k := v]> o) k' = prop o k'.
Proof. intros Hk. unfold prop. by rewrite lookup_insert_ne. Qed.

Lemma prop_insert_eq (o : Obj) (k : string) (v : Value) :
  prop (<[k := v]> o) k = v.
Proof. unfold prop. by rewrite lookup_insert_eq. Qed.

(** X4. A project without a [description] loses its [about]: after
    [create] or [update] the caller's object reads [about] as [undefined],
    whatever it held before, its other properties are as they were, and the
    body of every request sent has no [about] key. *)
Theorem about_erased_without_description `{Platform} (project : loc) (o : Obj)
    (w : World) (ro : RequestOptions) :
  heap w !! project = Some o →
  prop o "description" = None →
  let erased (run : Async Payload) :=
    (∃ o', heap (after run w) !! project = Some o'
           ∧ prop o' "about" = None
           ∧ ∀ k, k ≠ "about" → o' !! k = o !! k)
    ∧ Forall (λ c, ∃ sent, body c = Some sent ∧ member (Some sent) "about" = Some None)
        (sent (events run w)) in
  (∀ descriptor, erased (Projects.create descriptor project ro))
  ∧ (∀ descriptor, erased (Projects.update descriptor project ro)).
Proof.
  intros Hheap Hdesc erased.
  assert (∀ p m,
            erased
              (_ ← assign project "about" (λ o, prop o "description");
               configureRequest {|
                 api :=
                   sent ← deref project;
                   response ← apiRequest (call p (Some m) (Some sent) None);
                   mret (wrap (Some response) None);
                 cli := None;
                 requestOptions := ro
               |})) as Hboth.
  { intros p m.
    destruct (assign_then_request project o w p m ro Hheap) as (Hafter & Hsent).
    split.
    - exists (<["about" := prop o "description"]> o). rewrite Hafter.
      rewrite lookup_insert_eq, prop_insert_eq.
      split; [done|]. split; [done|]. intros k Hk. by rewrite lookup_insert_ne.
    - eapply Forall_impl; [exact Hsent|]. intros c Hc. simpl in Hc.
      eexists. split; [exact Hc|].
      unfold snapshot, member. f_equal.
      by rewrite lookup_omap, lookup_insert_eq, Hdesc. }
  split; intros descriptor; apply Hboth.
Qed.

(** A project fetched with an [about] and no [description], updated on an
    API Client: the object ends with [about] undefined, and the request
    body is the name alone. *)
Lemma about_erased_without_description_witness :
  let o : Obj := {[ "name" := Some (JStr "Site"); "about" := Some (JStr "Landing pages") ]} in
  let w := {| client := apiClient; heap := {[ 1%positive := o ]};
              server := [ok JNull]; trace := [] |} in
  let run := Projects.update (H := toyPlatform) (Project "p1") 1 noOptions in
  (∃ o', heap (after run w) !! 1%positive = Some o'
         ∧ prop o' "about" = None
         ∧ ∀ k, k ≠ "about" → o' !! k = o !! k)
  ∧ Forall (λ c, ∃ sent, body c = Some sent ∧ member (Some sent) "about" = Some None)
      (sent (events run w))
  ∧ body <$> sent (events run w) = [Some (JObj {[ "name" := JStr "Site" ]})].
Proof.
  intros o w run.
  destruct (proj2 (about_erased_without_description (H := toyPlatform) 1%positive o w
                     noOptions eq_refl eq_refl) (Project "p1")) as (Hobject & Hbodies).
  split; [exact Hobject|]. split; [exact Hbodies|]. vm_compute. reflexivity.
Defined.

(** X5. Writing [about] is idempotent: once [create] has run on an object,
    running [create] or [update] on it again, with any descriptor and
    options, leaves every object of the caller as the first call left it. *)
Theorem create_update_idempotent `{Platform} (project : loc) (o : Obj) (w : World)
    (d1 : OrganizationDescriptor) (ro1 : RequestOptions) :
  heap w !! project = Some o →
  let w1 := after (Projects.create d1 project ro1) w in
  (∀ d2 ro2, heap (after (Projects.create d2 project ro2) w1) = heap w1)
  ∧ (∀ d2 ro2, heap (after (Projects.update d2 project ro2) w1) = heap w1).
Proof.
  intros Hheap w1.
  set (o' := <["about" := prop o "description"]> o).
  assert (heap w1 = <[project := o']> (heap w)) as Hw1
    by exact (proj1 (assign_then_request project o w "projects" POST ro1 Hheap)).
  assert (heap w1 !! project = Some o') as Hheap1
    by (by rewrite Hw1, lookup_insert_eq).
  assert (<["about" := prop o' "description"]> o' = o') as Hfix.
  { subst o'. rewrite prop_insert_ne by done. apply insert_insert_eq. }
  assert (∀ p m ro2,
            heap (after
                    (_ ← assign project "about" (λ o, prop o "description");
                     configureRequest {|
                       api :=
                         sent ← deref project;
                         response ← apiRequest (call p (Some m) (Some sent) None);
                         mret (wrap (Some response) None);
                       cli := None;
                       requestOptions := ro2
                     |}) w1) = heap w1) as Hagain.
  { intros p m ro2.
    rewrite (proj1 (assign_then_request project o' w1 p m ro2 Hheap1)).
    rewrite Hfix, Hw1. apply insert_insert_eq. }
  split; intros d2 ro2; apply Hagain.
Qed.

(** Created twice, then updated, on a Client without an action for the call:
    the heap is what the first call made it. *)
Lemma create_update_idempotent_witness :
  let o : Obj := {[ "description" := Some (JStr "Screens") ]} in
  let w := {| client := cliClient; heap := {[ 1%positive := o ]};
              server := []; trace := [] |} in
  let w1 := after (Projects.create (H := toyPlatform) (Organization "org") 1 noOptions) w in
  heap (after (Projects.update (H := toyPlatform) (Project "p1") 1 noOptions) w1)
  = heap w1.
Proof.
  intros o w w1.
  exact (proj2 (create_update_idempotent (H := toyPlatform) 1%positive o w
                  (Organization "org") noOptions eq_refl) (Project "p1") noOptions).
Defined.

(** ** Projects.list on a response it cannot filter *)

Lemma filterM_null (keep : JSON → option bool) (items : list JSON) :
  keep JNull = None → JNull ∈ items → filterM keep items = None.
Proof.
  intros Hnull Hin. induction items as [|x items IH].
  - by apply not_elem_of_nil in Hin.
  - apply elem_of_cons in Hin as [<-|Hin]; simpl.
    + by rewrite Hnull.
    + rewrite IH by done. by destruct (keep x).
Qed.

(** X6. With a non-empty [sectionId], [Projects.list] needs
    [response.data.projects] to be an array of objects: when the transport
    resolves to a response where it is missing, is not an array, or is an
    array with a [null] in it, the call is rejected with a TypeError instead
    of resolving. *)
Theorem list_rejects_unfilterable_response `{Platform}
    (descriptor : OrganizationDescriptor) (options : Projects.ListOptions)
    (w : World) (response : JSON) (s : string) :
  let request :=
    call ("projects?" +:+ Projects.listQuery descriptor (Projects.filter options)
                             (Projects.sectionId options))
      None None (Some Projects.headers) in
  effectiveMode (client w) (Projects.others options) = API →
  outcome (apiRequest request) (record (Invoked API) w) = Resolved response →
  Projects.sectionId options = Some s →
  s ≠ "" →
  (∀ items,
     (data ← member (Some response) "data"; member data "projects")
       = Some (Some (JArr items)) →
     JNull ∈ items) →
  outcome (Projects.list descriptor options) w = Rejected TypeError.
Proof.
  intros request Hmode Hresponse Hs Hne Hbad.
  unfold Projects.list, outcome, configureRequest. simpl. rewrite Hmode.
  change ((_ ← emit (Invoked API); ?m) w) with (m (record (Invoked API) w)).
  rewrite bind_run. fold request.
  unfold outcome in Hresponse.
  destruct (apiRequest request (record (Invoked API) w)) as [result w'].
  simpl in Hresponse. subst result. rewrite Hs. simpl.
  rewrite bool_decide_eq_false_2 by done. simpl.
  destruct (member (Some response) "data") as [data|] eqn:Hdata; [|done].
  simpl in Hbad. rewrite bind_run. simpl.
  destruct (member data "projects") as [projects|] eqn:Hprojects; [|done].
  simpl. rewrite bind_run. simpl.
  destruct projects as [[| | | |items|]|]; try done.
  unfold arrayFilter. by rewrite filterM_null; [| |apply Hbad].
Qed.

(** The server answers with [projects: null]: listing a section is
    rejected with a TypeError. *)
Lemma list_rejects_unfilterable_response_witness :
  let w := world apiClient [ok (JObj {[ "projects" := JNull ]})] in
  let options := {|
    Projects.filter := None; Projects.sectionId := Some "a";
    Projects.others := noOptions
  |} in
  outcome (Projects.list (H := toyPlatform) (Organization "org") options) w
  = Rejected TypeError.
Proof.
  intros w options.
  apply (list_rejects_unfilterable_response (H := toyPlatform) (Organization "org")
           options w
           (envelope {| status := 200; retryAfterHint := None;
                        parsed := Some (JObj {[ "projects" := JNull ]}) |}
              (JObj {[ "projects" := JNull ]}))
           "a").
  - reflexivity.
  - reflexivity.
  - reflexivity.
  - discriminate.
  - intros items Hitems. vm_compute in Hitems. discriminate.
Defined.

(** ** Identifiers in paths *)

(** X7. Identifiers are spliced into the path as they are. A webhook
    identifier that contains a slash is read as further path segments:
    [Webhooks.info] on the identifier [h/deliveries] is the very call
    [Webhooks.deliveries] makes for [h], and on the identifier [events] it is
    the call [Webhooks.events] makes for the organization. *)
Theorem webhook_ids_unescaped `{Platform} (org h : string) (ro : RequestOptions) :
  Webhooks.info (Webhook org (h +:+ "/deliveries")) ro
  = Webhooks.deliveries (Webhook org h) ro
  ∧ Webhooks.info (Webhook org "events") ro
    = Webhooks.events (Organization org) ro.
Proof. split; reflexivity. Qed.

(** ** The CLI mock of the test helpers *)

Lemma sliceLast_suffix {A} (args l : list A) :
  Testing.sliceLast (length args) l = args
  ↔ args `suffix_of` l ∧ (args = [] → l = []).
Proof.
  destruct args as [|a args]; simpl.
  - split; [intros ->; split; [apply suffix_nil | done] | intros [_ Hl]; by apply Hl].
  - split.
    + intros Heq. split; [rewrite <- Heq; apply suffix_drop | done].
    + intros [[k ->] _]. rewrite length_app. simpl.
      replace (length k + S (length args) - S (length args)) with (length k) by lia.
      by rewrite drop_app_length.
Qed.

(** X8. Registering a handler on the mocked process checks the trailing
    arguments of the first recorded [spawn] call only: the expectation holds
    exactly when [args] is a suffix of that call's argument vector, and, when
    [args] is empty, the vector is empty too. Later calls of [spawn] are not
    looked at; a failed expectation schedules no callback. *)
Theorem mockCLI_checks_trailing_arguments `{Platform} (args : list string)
    (response : option JSON) (error : option (gmap string JSON))
    (first : Testing.SpawnCall) (later : list Testing.SpawnCall) (name : string) :
  let registered :=
    Testing.on (Testing.mockCLI args response error) (first :: later) name in
  ((∃ codes, registered = Testing.Scheduled codes)
   ↔ args `suffix_of` Testing.argv first ∧ (args = [] → Testing.argv first = []))
  ∧ (registered = Testing.ExpectationFailed
     ∨ ∃ codes, registered = Testing.Scheduled codes).
Proof.
  intros registered. subst registered. simpl.
  rewrite <- sliceLast_suffix.
  destruct (decide (Testing.sliceLast (length args) (Testing.argv first) = args))
    as [Heq|Hne].
  - split; [|right; eauto]. split; [done|eauto].
  - split; [|by left]. split; [by intros [codes [=]]|done].
Qed.

(** X9. Once the expectation holds, a mocked process settles one way: with
    an [error] the "error" handler is called once, with 1, and the "close"
    handler never; without one the "close" handler is called once, with 0,
    and the "error" handler never. A handler under any other name is never
    called. *)
Theorem mockCLI_fires_one_handler `{Platform} (args : list string)
    (response : option JSON) (error : option (gmap string JSON))
    (first : Testing.SpawnCall) (later : list Testing.SpawnCall) :
  args `suffix_of` Testing.argv first →
  (args = [] → Testing.argv first = []) →
  let on := Testing.on (Testing.mockCLI args response error) (first :: later) in
  on "error" = Testing.Scheduled (if error is Some _ then [1] else [])
  ∧ on "close" = Testing.Scheduled (if error is Some _ then [] else [0])
  ∧ ∀ name, name ≠ "error" → name ≠ "close" → on name = Testing.Scheduled [].
Proof.
  intros Hsuffix Hempty on. subst on. simpl.
  destruct (decide (Testing.sliceLast (length args) (Testing.argv first) = args))
    as [_|Hne]; [|by destruct Hne; apply sliceLast_suffix].
  split; [|split].
  - destruct error; reflexivity.
  - destruct error; reflexivity.
  - intros name He Hc.
    by rewrite (bool_decide_eq_false_2 _ He), (bool_decide_eq_false_2 _ Hc).
Qed.

(** [abstract projects list --json], mocked with the trailing argument
    alone and an error: the "error" handler gets 1, "close" nothing. *)
Lemma mockCLI_fires_one_handler_witness :
  let first := {| Testing.command := "abstract";
                  Testing.argv := ["projects"; "list"; "--json"] |} in
  let on :=
    Testing.on
      (Testing.mockCLI (H := toyPlatform) ["--json"] None (Some {[ "code" := JNum 1 ]}))
      [first] in
  on "error" = Testing.Scheduled [1]
  ∧ on "close" = Testing.Scheduled []
  ∧ ∀ name, name ≠ "error" → name ≠ "close" → on name = Testing.Scheduled [].
Proof.
  intros first on.
  refine (mockCLI_fires_one_handler (H := toyPlatform) ["--json"] None
            (Some {[ "code" := JNum 1 ]}) first [] _ _).
  - by exists ["projects"; "list"].
  - discriminate.
Defined.

(** ** The caller's objects *)

Lemma keepsHeap_discard {A} (m : Async A) : keepsHeap m → keepsHeap (discard m).
Proof. intros Hm w. by rewrite after_discard. Qed.

Lemma keepsHeap_simple `{Platform} c ro :
  keepsHeap (configureRequest {| api := apiRequest c; cli := None; requestOptions := ro |}).
Proof. apply keepsHeap_configureRequest; [apply keepsHeap_apiRequest | done]. Qed.

Lemma assign_then_request_frame `{Platform} (project : loc) (w : World)
    (p : string) (m : Method) (ro : RequestOptions) (l : loc) :
  l ≠ project →
  heap (after
          (_ ← assign project "about" (λ o, prop o "description");
           configureRequest {|
             api :=
               sent ← deref project;
               response ← apiRequest (call p (Some m) (Some sent) None);
               mret (M := Async) (wrap (Some response) None);
             cli := None;
             requestOptions := ro
           |}) w) !! l
  = heap w !! l.
Proof.
  intros Hl. destruct (heap w !! project) as [o|] eqn:Hheap.
  - rewrite (proj1 (assign_then_request project o w p m ro Hheap)).
    by rewrite lookup_insert_ne.
  - unfold after. rewrite bind_run. unfold assign. by rewrite Hheap.
Qed.

(** X10. The operations leave the caller's objects alone, but for the
    project handed to [Projects.create] or [Projects.update]: after any
    operation, in any mode and however it settles, every other object is as
    it was before. *)
Theorem only_the_project_is_written `{Platform} (op : Operation) (w : World)
    (l : loc) :
  heap (after (perform op) w) !! l = heap w !! l ∨ projectOf op = Some l.
Proof.
  destruct op; simpl; rewrite after_discard;
    try (left; f_equal;
         first
           [ apply keepsHeap_simple
           | apply keepsHeap_configureRequest; [|done];
             repeat first
               [ apply keepsHeap_apiRequest | apply keepsHeap_orThrow
               | apply keepsHeap_verifyApi
               | apply keepsHeap_bind; [|intros]
               | match goal with |- keepsHeap (if ?b then _ else _) => destruct b end
               | done ] ]).
  - destruct (decide (l = project)) as [->|Hl]; [by right|left].
    by apply assign_then_request_frame.
  - destruct (decide (l = project)) as [->|Hl]; [by right|left].
    by apply assign_then_request_frame.
Qed.
